(** * EMIT data access how-to: search results, asset filtering, retrieval

    A shallow embedding of the code cells of
    [python/how-tos/How_to_find_and_access_EMIT_data.ipynb] that carry
    logic of their own: the asset filter (cell 29), the streaming step
    (cell 31), the download loop (cell 33) and the bounding box of cell 14.

    Python [str] values are modelled as [string] (a sequence of
    characters), Python lists as [list], [bytes] as [list byte].  A raised
    exception is a value of [exn] carried by [result]; code that touches the
    file system or the network runs in the state-and-exception monad [M]
    over a [world]. *)

From Stdlib Require Import ZArith NArith Ascii String Strings.Byte List Bool Lia.
From stdpp Require Import base option list strings gmap fin_maps.

Local Open Scope string_scope.
Local Open Scope list_scope.
Local Open Scope Z_scope.

(** ** Exceptions and results *)

Inductive exn : Type :=
| IndexError          (* list index out of range *)
| TransportError      (* raised by the HTTPS session for a failed request *)
| DatasetError        (* raised by [emit_xarray] for an unreadable file *)
| IsADirectoryError   (* raised by [open] for a path that names a directory *)
| ChunkedEncodingError. (* raised by [iter_content] when the connection breaks *)

Inductive result (A : Type) : Type :=
| Ok (a : A)
| Raise (e : exn).
Arguments Ok {A} a.
Arguments Raise {A} e.

#[global] Instance result_ret : MRet result := fun _ a => Ok a.
#[global] Instance result_bind : MBind result := fun _ _ f r =>
  match r with
  | Ok a => f a
  | Raise e => Raise e
  end.

(** ** Python primitives used by the notebook *)

Module Py.

(** [l[i]] for a Python list: a negative index counts from the end, an
    index out of range raises [IndexError]. *)
Definition index {A : Type} (l : list A) (i : Z) : result A :=
  let n := Z.of_nat (length l) in
  let j := if i <? 0 then i + n else i in
  if (j <? 0) || (n <=? j) then Raise IndexError
  else match l !! Z.to_nat j with
       | Some x => Ok x
       | None => Raise IndexError
       end.

(** [s.split(sep)] for a one-character separator: the pieces between
    the occurrences of [sep], in order; [cur] is the piece being read. *)
Fixpoint split_from (sep : ascii) (cur : string) (s : string) : list string :=
  match s with
  | EmptyString => [cur]
  | String c t =>
      if Ascii.eqb c sep then cur :: split_from sep EmptyString t
      else split_from sep (cur +:+ String c EmptyString) t
  end.

Definition split (sep : ascii) (s : string) : list string :=
  split_from sep EmptyString s.

(** [sub in s] for two strings: [sub] occurs in [s] as a contiguous
    substring, compared character by character. *)
Fixpoint str_in (sub s : string) : bool :=
  if String.prefix sub s then true
  else match s with
       | EmptyString => false
       | String _ t => str_in sub t
       end.

(** [any(f(x) for x in l)] *)
Definition any {A : Type} (f : A -> bool) (l : list A) : bool := existsb f l.

(** [for x in l: body(acc, x)], threading the loop's variables [acc]
    and stopping at the first exception. *)
Fixpoint for_acc {A S : Type} (l : list A) (body : S -> A -> result S) (acc : S)
  : result S :=
  match l with
  | [] => Ok acc
  | x :: t => acc' ← body acc x; for_acc t body acc'
  end.

End Py.

(** ** Cell 27 and cell 29: URL lists and the asset filter *)

Record granule : Type := { data_links : list string }.

(** [emit_results_urls = [granule.data_links() for granule in results]] *)
Definition emit_results_urls (results : list granule) : list (list string) :=
  map data_links results.

(** [asset_name = url.split('/')[-1]] *)
Definition asset_name (url : string) : result string :=
  Py.index (Py.split "/" url) (-1).

(** The body of the inner loop of cell 29. *)
Definition filter_url (desired_assets : list string)
    (filtered_asset_links : list string) (url : string) : result (list string) :=
  name ← asset_name url;
  if Py.any (fun asset => Py.str_in asset name) desired_assets
  then Ok (filtered_asset_links ++ [url])
  else Ok filtered_asset_links.

(** Cell 29: the nested loop over granules and their URLs, starting from
    [filtered_asset_links = []]. *)
Definition filter_assets (emit_results_urls : list (list string))
    (desired_assets : list string) : result (list string) :=
  Py.for_acc emit_results_urls
    (fun acc granule => Py.for_acc granule (filter_url desired_assets) acc)
    [].

(** [desired_assets = ['RFL_']] as the notebook sets it. *)
Definition desired_assets : list string := ["RFL_"].

(** ** The world outside the notebook: local files and the network *)

(** What the retrieval cells do to the outside, in order. *)
Inductive event : Type :=
| Request (url : string)                      (* a GET sent by the HTTPS session *)
| OpenWrite (path : string)                   (* [open(path, 'wb')] *)
| Write (path : string) (chunk : list byte).  (* [dst.write(chunk)] *)

(** The regular files of the local file system, by path, and the log of
    the effects performed so far.  The data directory exists and a file can
    be created in it; the directories themselves are not in [files], and a
    path names one when its last component is empty, ['.'] or ['..']. *)
Record world : Type := World {
  files : gmap string (list byte);
  trace : list event
}.

(** A computation that reads and changes the world and may raise; the
    world reached when the exception is raised is kept. *)
Definition M (A : Type) : Type := world -> result A * world.

#[global] Instance M_ret : MRet M := fun _ a w => (Ok a, w).
#[global] Instance M_bind : MBind M := fun _ _ f m w =>
  match m w with
  | (Ok a, w') => f a w'
  | (Raise e, w') => (Raise e, w')
  end.

Definition lift {A : Type} (r : result A) : M A := fun w => (r, w).

Definition log (e : event) (w : world) : world :=
  {| files := files w; trace := trace w ++ [e] |}.

(** [for x in l: body(x)] *)
Fixpoint for_each {A : Type} (l : list A) (body : A -> M unit) : M unit :=
  match l with
  | [] => mret tt
  | x :: t => _ ← body x; for_each t body
  end.

(** [os.path.isfile(fp)] *)
Definition isfile (fp : string) : M bool :=
  fun w => (Ok (bool_decide (is_Some (files w !! fp))), w).

(** The last components that name a directory wherever they stand. *)
Definition is_directory_name (name : string) : bool :=
  String.eqb name "" || String.eqb name "." || String.eqb name "..".

(** [fp] names a directory: it ends in ['/'], ['/.'] or ['/..'], or is
    one of [''], ['.'], ['..']. *)
Definition is_directory (fp : string) : bool :=
  match Py.index (Py.split "/" fp) (-1) with
  | Ok name => is_directory_name name
  | Raise _ => false
  end.

(** [open(fp, 'wb')]: the file is created, or emptied when it exists; a
    path that names a directory cannot be opened for writing, and nothing is
    created then. *)
Definition open_wb (fp : string) : M unit :=
  fun w =>
    if is_directory fp then (Raise IsADirectoryError, w)
    else (Ok tt, log (OpenWrite fp)
                   {| files := <[fp := []]> (files w); trace := trace w |}).

(** [dst.write(chunk)] on the file opened at [fp]: the bytes are appended. *)
Definition write (fp : string) (chunk : list byte) : M unit :=
  fun w => (Ok tt, log (Write fp chunk)
                     {| files := alter (fun old => old ++ chunk) fp (files w);
                        trace := trace w |}).

(** The first [n] bytes of [l] and the rest. *)
Fixpoint take_chunk (n : N) (l : list byte) : list byte * list byte :=
  match l with
  | [] => ([], [])
  | b :: t =>
      if (n =? 0)%N then ([], l)
      else let '(c, rest) := take_chunk (N.pred n) t in (b :: c, rest)
  end.

Fixpoint chunks (fuel : nat) (n : N) (body : list byte) : list (list byte) :=
  match fuel, body with
  | O, _ => []
  | _, [] => []
  | S fuel', _ => let '(c, rest) := take_chunk n body in c :: chunks fuel' n rest
  end.

(** The chunks of [src.iter_content(chunk_size=n)] for a body that
    arrives whole: the body cut into pieces of [n] bytes, the last one
    possibly shorter; no piece for an empty body. *)
Definition iter_content (chunk_size : N) (body : list byte) : list (list byte) :=
  chunks (length body) chunk_size body.

(** What [fs.get(url, stream=True)] returns: the headers have arrived, the
    body has not been read yet.  [content] is the body the server is
    sending; [cut] tells how the transfer will end: [None] when the whole
    body arrives, [Some k] when the connection breaks once [k] chunks have
    been read (or all of them, when there are fewer). *)
Record response : Type := { content : list byte; cut : option nat }.

(** The chunks that [src.iter_content(chunk_size=n)] yields before it
    ends or raises. *)
Definition received (n : N) (src : response) : list (list byte) :=
  match cut src with
  | None => iter_content n (content src)
  | Some k => take k (iter_content n (content src))
  end.

(** How the iteration over [src.iter_content(...)] ends: normally, or
    with the exception of the broken connection. *)
Definition stream_end (src : response) : result unit :=
  match cut src with
  | None => Ok tt
  | Some _ => Raise ChunkedEncodingError
  end.

(** [64*1024*1024] *)
Definition chunk_size : N := (64 * 1024 * 1024)%N.

(** [f'../../data/{granule_asset_id}'] *)
Definition local_path (granule_asset_id : string) : string :=
  "../../data/" +:+ granule_asset_id.

Section Retrieval.

(** The sessions [fs] of cells 31 and 33 are taken as obtained: the
    login of cell 4 succeeded.  For both, [remote url] is the body the
    server sends for [url], and [None] when the request fails in the
    transport layer. *)
Variable remote : string -> option (list byte).

(** How the streamed transfer of the body of a URL ends, see [cut]. *)
Variable breaks : string -> option nat.

(** [fs.get(url, stream=True)] on the requests session: the request is
    sent and the response comes back with its body still to be read. *)
Definition fs_get (url : string) : M response :=
  fun w =>
    match remote url with
    | Some body => (Ok {| content := body; cut := breaks url |}, log (Request url) w)
    | None => (Raise TransportError, log (Request url) w)
    end.

(** The body of the loop of cell 33.  The chunks are read from the
    connection one by one inside the inner loop, after the file has been
    opened. *)
Definition download_url (url : string) : M unit :=
  granule_asset_id ← lift (asset_name url);
  let fp := local_path granule_asset_id in
  present ← isfile fp;
  if negb present then
    src ← fs_get url;
    _ ← open_wb fp;
    _ ← for_each (received chunk_size src) (fun chunk => write fp chunk);
    lift (stream_end src)
  else mret tt.

(** Cell 33: [for url in filtered_asset_links: ...] *)
Definition download_filtered (filtered_asset_links : list string) : M unit :=
  for_each filtered_asset_links download_url.

(** [emit_xarray] of [python/modules/emit_tools.py], which reads the
    opened file into a dataset; the module is taken as given. *)
Variable dataset : Type.
Variable emit_xarray : list byte -> result dataset.

(** [fs.open(url)] on the fsspec session: a readable handle on the
    remote content. *)
Definition fs_open (url : string) : M (list byte) :=
  fun w =>
    match remote url with
    | Some body => (Ok body, log (Request url) w)
    | None => (Raise TransportError, log (Request url) w)
    end.

(** Cell 31: the streaming step. *)
Definition stream (filtered_asset_links : list string) : M dataset :=
  url ← lift (Py.index filtered_asset_links 0);
  granule_asset_id ← lift (asset_name url);
  fp ← fs_open url;
  ds ← lift (emit_xarray fp);
  mret ds.

(** Cells 27, 29 and 31 run one after the other on the search results. *)
Definition filter_then_stream (results : list granule) (desired : list string)
  : M dataset :=
  filtered_asset_links ← lift (filter_assets (emit_results_urls results) desired);
  stream filtered_asset_links.

End Retrieval.

(** ** Cell 14: the bounding box of the region of interest *)

Section BoundingBox.

(** Coordinates and their order; the notebook's are floating-point
    numbers, of which only the comparisons are used here. *)
Variable coord : Type.
Variable leb : coord -> coord -> bool.

Definition cmin (a b : coord) : coord := if leb a b then a else b.
Definition cmax (a b : coord) : coord := if leb a b then b else a.

(** Modelled from the spec: [total_bounds] is a property of the
    geopandas frame read from the boundary file, and no code of it is in
    the notebook.  Following the spec ("a polygon's total extent ... over
    all polygon vertices") it is the array [minx, miny, maxx, maxy] taken
    over the (lon, lat) vertices; a frame without vertices has no
    extent. *)
Definition total_bounds (polygon : list (coord * coord)) : option (list coord) :=
  match polygon with
  | [] => None
  | (x, y) :: vs =>
      Some [ foldl cmin x (map fst vs); foldl cmin y (map snd vs);
             foldl cmax x (map fst vs); foldl cmax y (map snd vs) ]
  end.

(** [tuple(list(a))]: the same elements in the same order. *)
Definition py_list (a : list coord) : list coord := a.
Definition py_tuple (l : list coord) : list coord := l.

(** [bbox = tuple(list(geojson.total_bounds))] *)
Definition bbox (polygon : list (coord * coord)) : option (list coord) :=
  (fun a => py_tuple (py_list a)) <$> total_bounds polygon.

End BoundingBox.

(** ** The vocabulary of the specification *)

(** [c] occurs in [s]. *)
Fixpoint has_char (c : ascii) (s : string) : bool :=
  match s with
  | EmptyString => false
  | String a t => Ascii.eqb a c || has_char c t
  end.

(** [sub] is a substring of [s]; the characters are compared as they
    are, so the match is case-sensitive. *)
Definition Substring (sub s : string) : Prop :=
  ∃ pre post, s = pre +:+ sub +:+ post.

(** [seg] is the final path segment of [url]: what follows the last
    ['/'], or all of [url] when it has none. *)
Definition FinalSegment (url seg : string) : Prop :=
  has_char "/" seg = false ∧ (url = seg ∨ ∃ pre, url = pre +:+ String "/" seg).

(** The final path segment of [url] contains a desired substring. *)
Definition Wanted (desired : list string) (url : string) : Prop :=
  ∃ seg asset, FinalSegment url seg ∧ asset ∈ desired ∧ Substring asset seg.

(** [out] is [l] with exactly the elements satisfying [P] kept, each
    occurrence in its place. *)
Inductive Selects {A : Type} (P : A -> Prop) : list A -> list A -> Prop :=
| Selects_nil : Selects P [] []
| Selects_keep x l out : P x -> Selects P l out -> Selects P (x :: l) (x :: out)
| Selects_drop x l out : ¬ P x -> Selects P l out -> Selects P (x :: l) out.

(** The paths opened for writing or written to by a run. *)
Definition written_path (e : event) : option string :=
  match e with
  | Request _ => None
  | OpenWrite p => Some p
  | Write p _ => Some p
  end.

Definition requested (e : event) : option string :=
  match e with
  | Request u => Some u
  | _ => None
  end.

(** The downloads recorded in a log, in order: each request that is
    directly followed by the opening of a file, with the path of that
    file. *)
Fixpoint downloads (evs : list event) : list (string * string) :=
  match evs with
  | [] => []
  | e :: rest =>
      match e, rest with
      | Request url, OpenWrite p :: _ => (url, p) :: downloads rest
      | _, _ => downloads rest
      end
  end.

(** What a run of the download loop over [links], started in [w] and
    ended in [w'] with result [r], has logged and left behind: [evs] is
    what it added to the log; the files that were there are as they were; a
    request went out only for a listed URL whose destination was not there;
    every opening and every write belongs to a recorded download; a
    recorded download is that of a listed URL that was requested and
    answered, into the path made from its asset name, which was not there
    and now holds what was received of the body -- all of it unless the
    transfer broke, which it did not when the run returned normally; no path
    was opened twice; and every new file comes from a recorded download. *)
Definition run_facts (remote : string -> option (list byte))
    (breaks : string -> option nat) (links : list string) (w : world)
    (r : result unit) (w' : world) (evs : list event) : Prop :=
  trace w' = trace w ++ evs ∧
  (∀ p c, files w !! p = Some c -> files w' !! p = Some c) ∧
  (∀ url, Request url ∈ evs ->
     url ∈ links ∧ ∀ seg, FinalSegment url seg -> files w !! local_path seg = None) ∧
  (∀ e p, e ∈ evs -> written_path e = Some p -> ∃ url, (url, p) ∈ downloads evs) ∧
  (∀ url p, (url, p) ∈ downloads evs ->
     url ∈ links ∧ Request url ∈ evs ∧ files w !! p = None ∧
     (∃ seg, FinalSegment url seg ∧ p = local_path seg) ∧
     (∃ body, remote url = Some body ∧
        files w' !! p
          = Some (concat (received chunk_size {| content := body; cut := breaks url |}))) ∧
     (r = Ok tt -> breaks url = None)) ∧
  NoDup (downloads evs).*2 ∧
  (∀ p, files w !! p = None -> is_Some (files w' !! p) ->
     ∃ url, (url, p) ∈ downloads evs).


(** [m] is a least (a greatest) element of [l] for the order [leb]. *)
Definition IsMin {A : Type} (leb : A -> A -> bool) (m : A) (l : list A) : Prop :=
  m ∈ l ∧ ∀ x, x ∈ l -> leb m x = true.
Definition IsMax {A : Type} (leb : A -> A -> bool) (m : A) (l : list A) : Prop :=
  m ∈ l ∧ ∀ x, x ∈ l -> leb x m = true.

(** ** Sample data *)

Module Sample.

Definition url : string := "https://data.example/lp/EMIT_L2A_RFL_001.nc".
Definition name : string := "EMIT_L2A_RFL_001.nc".
Definition body : list byte := [x45; x4d; x49; x54; x0a].

(** A server that knows one file. *)
Definition remote (u : string) : option (list byte) :=
  if String.eqb u url then Some body else None.


(** No transfer breaks. *)
Definition unbroken (u : string) : option nat := None.



(** An empty data directory, and one holding the start of the file
    left by an interrupted download. *)
Definition empty_dir : world := {| files := ∅; trace := [] |}.
Definition interrupted : world :=
  {| files := {[ local_path name := [x45; x4d] ]}; trace := [] |}.

(** A search result whose only granule has no reflectance file. *)
Definition mask_only : list granule :=
  [ {| data_links := ["https://data.example/lp/EMIT_L2A_MASK_001.nc"] |} ].

(** A closed ring of three vertices, as (lon, lat) pairs. *)
Definition ring : list (Z * Z) := [(3, 4); (1, 7); (5, 2); (3, 4)].

End Sample.

(** ** Cell 8: the short names of the collections *)

(** The outcome of a dict subscript [d[key]]: the value, or [KeyError]. *)
Inductive subscript (A : Type) : Type :=
| Got (a : A)
| KeyError (key : string).
Arguments Got {A} a.
Arguments KeyError {A} key.

Section ShortNames.

(** The values held by a summary dict. *)
Variable value : Type.

(** A collection of the query result; [collection.summary()] is a dict. *)
Record collection : Type := { summary : gmap string value }.

(** [product[key]] *)
Definition getitem (product : gmap string value) (key : string) : subscript value :=
  match product !! key with
  | Some v => Got v
  | None => KeyError key
  end.

(** [[f(x) for x in l]], stopping at the first [KeyError]. *)
Fixpoint comprehension {A B : Type} (f : A -> subscript B) (l : list A)
  : subscript (list B) :=
  match l with
  | [] => Got []
  | x :: t =>
      match f x with
      | KeyError key => KeyError key
      | Got y =>
          match comprehension f t with
          | KeyError key => KeyError key
          | Got ys => Got (y :: ys)
          end
      end
  end.

(** [[product['short-name'] for product in
      [collection.summary() for collection in collections]]] *)
Definition short_names (collections : list collection) : subscript (list value) :=
  comprehension (fun product => getitem product "short-name")
    (map summary collections).

End ShortNames.

(** ** The test of cell 29 on its own *)

(** [any(asset in asset_name for asset in desired_assets)] for the name
    of [url]. *)
Definition is_desired (desired_assets : list string) (url : string) : result bool :=
  name ← asset_name url;
  Ok (Py.any (fun asset => Py.str_in asset name) desired_assets).

(** ** Cell 23: the first granule of the results *)

(** [results[0]] *)
Definition first_granule (results : list granule) : result granule :=
  Py.index results 0.

(** ** Cells 27, 29 and 33 in a row *)

Definition filter_then_download (remote : string -> option (list byte))
    (breaks : string -> option nat)
    (results : list granule) (desired : list string) : M unit :=
  filtered_asset_links ← lift (filter_assets (emit_results_urls results) desired);
  download_filtered remote breaks filtered_asset_links.

(** * Properties *)

(** ** Strings *)

Lemma str_app_nil_r (s : string) : s +:+ "" = s.
Proof.
  induction s as [|c s IH]; [reflexivity|].
  change (String c (s +:+ "") = String c s). by rewrite IH.
Qed.

Lemma str_app_cons (c : ascii) (s t : string) : String c s +:+ t = String c (s +:+ t).
Proof. reflexivity. Qed.

Lemma str_app_assoc (s t u : string) : (s +:+ t) +:+ u = s +:+ (t +:+ u).
Proof.
  induction s as [|c s IH]; [reflexivity|].
  rewrite !str_app_cons. by rewrite IH.
Qed.

Lemma has_char_app (c : ascii) (s t : string) :
  has_char c (s +:+ t) = has_char c s || has_char c t.
Proof.
  induction s as [|a s IH]; [reflexivity|].
  rewrite str_app_cons. simpl. rewrite IH. by rewrite orb_assoc.
Qed.

Lemma prefix_spec (sub s : string) :
  String.prefix sub s = true ↔ ∃ post, s = sub +:+ post.
Proof.
  revert sub. induction s as [|b s IH]; intros [|a sub]; simpl.
  - split; [by exists ""|done].
  - split; [done|]. intros [post Hp]. by rewrite str_app_cons in Hp.
  - split; [by exists (String b s)|done].
  - destruct (ascii_dec a b) as [->|Hne].
    + rewrite IH. split; intros [post Hp]; exists post.
      * by rewrite str_app_cons, <- Hp.
      * rewrite str_app_cons in Hp. by inversion Hp.
    + split; [done|]. intros [post Hp]. rewrite str_app_cons in Hp.
      inversion Hp; congruence.
Qed.

Lemma str_in_unfold (sub s : string) :
  Py.str_in sub s =
  if String.prefix sub s then true
  else match s with
       | EmptyString => false
       | String _ t => Py.str_in sub t
       end.
Proof. by destruct s. Qed.

Lemma str_in_spec (sub s : string) : Py.str_in sub s = true ↔ Substring sub s.
Proof.
  induction s as [|b s IH]; rewrite str_in_unfold.
  - destruct (String.prefix sub "") eqn:Hp.
    + split; [|done]. intros _. apply prefix_spec in Hp as [post Hp].
      exists "", post. exact Hp.
    + split; [done|]. intros (pre & post & Hs).
      destruct pre as [|? ?]; [|by rewrite str_app_cons in Hs].
      assert (String.prefix sub "" = true) by (apply prefix_spec; by exists post).
      congruence.
  - destruct (String.prefix sub (String b s)) eqn:Hp.
    + split; [|done]. intros _. apply prefix_spec in Hp as [post Hp].
      exists "", post. exact Hp.
    + rewrite IH. split.
      * intros (pre & post & ->). by exists (String b pre), post.
      * intros (pre & post & Hs). destruct pre as [|a pre].
        -- assert (String.prefix sub (String b s) = true)
             by (apply prefix_spec; by exists post).
           congruence.
        -- rewrite str_app_cons in Hs. inversion Hs; subst. by exists pre, post.
Qed.

Lemma str_in_empty (s : string) : Py.str_in "" s = true.
Proof. destruct s; reflexivity. Qed.

(** Letters of different case are different characters. *)
Example str_in_case :
  Py.str_in "RFL_" "EMIT_L2A_RFL_001.nc" = true ∧
  Py.str_in "rfl_" "EMIT_L2A_RFL_001.nc" = false.
Proof. split; reflexivity. Qed.

(** ** [url.split('/')[-1]] *)

Lemma index_last {A : Type} (init : list A) (x : A) :
  Py.index (init ++ [x]) (-1) = Ok x.
Proof.
  unfold Py.index. rewrite length_app. simpl length.
  replace (-1 <? 0) with true by reflexivity.
  replace (-1 + Z.of_nat (length init + 1)) with (Z.of_nat (length init)) by lia.
  replace (Z.of_nat (length init) <? 0) with false by (symmetry; apply Z.ltb_ge; lia).
  replace (Z.of_nat (length init + 1) <=? Z.of_nat (length init)) with false
    by (symmetry; apply Z.leb_gt; lia).
  simpl. rewrite Nat2Z.id.
  by rewrite lookup_app_r, Nat.sub_diag by lia.
Qed.

Lemma split_from_last (sep : ascii) (s cur : string) :
  ∃ init seg,
    Py.split_from sep cur s = init ++ [seg] ∧
    ((seg = cur +:+ s ∧ has_char sep s = false) ∨
     (has_char sep seg = false ∧ ∃ pre, s = pre +:+ String sep seg)).
Proof.
  revert cur. induction s as [|c s IH]; intros cur; simpl.
  - exists [], cur. split; [done|]. left. by rewrite str_app_nil_r.
  - destruct (Ascii.eqb_spec c sep) as [->|Hne].
    + destruct (IH "") as (init & seg & -> & Hseg).
      exists (cur :: init), seg. split; [done|]. right.
      destruct Hseg as [[-> Hno]|[Hno [pre ->]]].
      * split; [done|]. by exists "".
      * split; [done|]. by exists (String sep pre).
    + destruct (IH (cur +:+ String c "")) as (init & seg & -> & Hseg).
      exists init, seg. split; [done|].
      destruct Hseg as [[-> Hno]|[Hno [pre ->]]].
      * left. split; [by rewrite str_app_assoc|done].
      * right. split; [done|]. by exists (String c pre).
Qed.

(** The expression [url.split('/')[-1]] never raises, and its value is
    the final path segment of [url]. *)
Lemma asset_name_final (url : string) :
  ∃ seg, asset_name url = Ok seg ∧ FinalSegment url seg.
Proof.
  unfold asset_name, Py.split.
  destruct (split_from_last "/" url "") as (init & seg & -> & Hseg).
  exists seg. split; [apply index_last|].
  destruct Hseg as [[-> Hno]|[Hno [pre ->]]].
  - split; [done|by left].
  - split; [done|]. right. by exists pre.
Qed.

Lemma FinalSegment_unique (url seg seg' : string) :
  FinalSegment url seg → FinalSegment url seg' → seg = seg'.
Proof.
  revert seg seg'.
  assert (Hcut : ∀ pre pre' t t' : string,
             has_char "/" t = false → has_char "/" t' = false →
             pre +:+ String "/" t = pre' +:+ String "/" t' → t = t').
  { induction pre as [|a pre IH]; intros [|a' pre'] t t' Ht Ht' Heq.
    - by inversion Heq.
    - rewrite str_app_cons in Heq. inversion Heq; subst.
      rewrite has_char_app in Ht. simpl in Ht. by rewrite orb_true_r in Ht.
    - rewrite str_app_cons in Heq. inversion Heq; subst.
      rewrite has_char_app in Ht'. simpl in Ht'. by rewrite orb_true_r in Ht'.
    - rewrite !str_app_cons in Heq. inversion Heq; subst. eauto. }
  intros seg seg' [Hno [->|[pre ->]]] [Hno' [Heq|[pre' Heq]]].
  - done.
  - subst. rewrite has_char_app in Hno. simpl in Hno. by rewrite orb_true_r in Hno.
  - subst. rewrite has_char_app in Hno'. simpl in Hno'. by rewrite orb_true_r in Hno'.
  - eauto.
Qed.

Lemma asset_name_of_final (url seg : string) :
  FinalSegment url seg → asset_name url = Ok seg.
Proof.
  intros Hseg. destruct (asset_name_final url) as (seg' & -> & Hseg').
  f_equal. by eapply FinalSegment_unique.
Qed.

(** ** Selection from a list *)

Lemma Selects_app {A : Type} (P : A → Prop) (l1 l2 o1 o2 : list A) :
  Selects P l1 o1 → Selects P l2 o2 → Selects P (l1 ++ l2) (o1 ++ o2).
Proof.
  induction 1 as [|x l out Hx _ IH|x l out Hx _ IH]; intros H2; simpl.
  - done.
  - apply Selects_keep; auto.
  - apply Selects_drop; auto.
Qed.

Lemma Selects_unique {A : Type} (P : A → Prop) (l o1 o2 : list A) :
  Selects P l o1 → Selects P l o2 → o1 = o2.
Proof.
  intros H1. revert o2.
  induction H1 as [|x l out Hx _ IH|x l out Hx _ IH]; intros o2 H2; inversion H2; subst.
  - done.
  - f_equal. auto.
  - done.
  - done.
  - auto.
Qed.

Lemma Selects_sublist {A : Type} (P : A → Prop) (l out : list A) :
  Selects P l out → out `sublist_of` l.
Proof. induction 1; by constructor. Qed.

Lemma Selects_elem_of {A : Type} (P : A → Prop) (l out : list A) (x : A) :
  Selects P l out → x ∈ out ↔ x ∈ l ∧ P x.
Proof.
  induction 1 as [|y l out Hy _ IH|y l out Hy _ IH].
  - split; [by intros ?%elem_of_nil|by intros [?%elem_of_nil _]].
  - rewrite !elem_of_cons, IH. intuition (subst; auto).
  - rewrite elem_of_cons, IH. intuition (subst; auto). by subst.
Qed.

Lemma Selects_all {A : Type} (P : A → Prop) (l out : list A) :
  (∀ x, P x) → Selects P l out → out = l.
Proof. intros HP. induction 1; [done|by f_equal|by exfalso; eauto]. Qed.

Lemma Selects_none {A : Type} (P : A → Prop) (l out : list A) :
  (∀ x, ¬ P x) → Selects P l out → out = [].
Proof. intros HP. induction 1; [done|by exfalso; eapply HP|done]. Qed.

(** ** The asset filter (cell 29) *)

(** One turn of the inner loop appends the URL when it is wanted and
    leaves the list alone when it is not. *)
Lemma filter_url_spec (desired acc : list string) (url : string) :
  (Wanted desired url ∧ filter_url desired acc url = Ok (acc ++ [url])) ∨
  (¬ Wanted desired url ∧ filter_url desired acc url = Ok acc).
Proof.
  destruct (asset_name_final url) as (seg & Hname & Hseg).
  unfold filter_url. rewrite Hname. unfold mbind, result_bind, Py.any.
  destruct (existsb _ desired) eqn:Hany.
  - left. split; [|done].
    apply existsb_exists in Hany as (asset & Hin & Hsub).
    exists seg, asset. split; [done|]. split; [by apply list_elem_of_In|].
    by apply str_in_spec.
  - right. split; [|done].
    intros (seg' & asset & Hseg' & Hin & Hsub).
    rewrite (FinalSegment_unique _ _ _ Hseg' Hseg) in Hsub.
    assert (existsb (λ a, Py.str_in a seg) desired = true); [|congruence].
    apply existsb_exists. exists asset.
    split; [by apply list_elem_of_In|by apply str_in_spec].
Qed.

Lemma filter_granule_spec (desired granule acc : list string) :
  ∃ out, Py.for_acc granule (filter_url desired) acc = Ok (acc ++ out) ∧
         Selects (Wanted desired) granule out.
Proof.
  revert acc. induction granule as [|url granule IH]; intros acc; simpl.
  - exists []. split; [by rewrite app_nil_r|constructor].
  - destruct (filter_url_spec desired acc url) as [[Hw ->]|[Hw ->]];
      unfold mbind, result_bind.
    + destruct (IH (acc ++ [url])) as (out & -> & Hout).
      exists (url :: out). split; [by rewrite <- app_assoc|by constructor].
    + destruct (IH acc) as (out & -> & Hout).
      exists out. split; [done|by constructor].
Qed.

Lemma filter_granules_spec (desired : list string) (urls : list (list string))
    (acc : list string) :
  ∃ out,
    Py.for_acc urls (λ acc granule, Py.for_acc granule (filter_url desired) acc) acc
      = Ok (acc ++ out) ∧
    Selects (Wanted desired) (concat urls) out.
Proof.
  revert acc. induction urls as [|granule urls IH]; intros acc; simpl.
  - exists []. split; [by rewrite app_nil_r|constructor].
  - destruct (filter_granule_spec desired granule acc) as (o1 & -> & H1).
    unfold mbind, result_bind.
    destruct (IH (acc ++ o1)) as (o2 & -> & H2).
    exists (o1 ++ o2). split; [by rewrite app_assoc|by apply Selects_app].
Qed.

Lemma filter_assets_spec (urls : list (list string)) (desired : list string) :
  ∃ out, filter_assets urls desired = Ok out ∧
         Selects (Wanted desired) (concat urls) out.
Proof.
  destruct (filter_granules_spec desired urls []) as (out & Hrun & Hsel).
  exists out. by split.
Qed.

(** C1. For every list of per-granule URL lists and every list of desired
    substrings, the filter of cell 29 returns (it never raises) the
    flattening of the input with exactly those URLs kept, each occurrence in
    its place, whose final path segment -- what follows the last ['/'] --
    contains one of the desired substrings, compared case-sensitively.  In
    particular the output is a subsequence of the flattened input and a URL
    is in it iff it is an input URL and is wanted. *)
Theorem filter_assets_exact (urls : list (list string)) (desired : list string) :
  ∃ out,
    filter_assets urls desired = Ok out ∧
    Selects (Wanted desired) (concat urls) out ∧
    out `sublist_of` concat urls ∧
    (∀ url, url ∈ out ↔ url ∈ concat urls ∧ Wanted desired url).
Proof.
  destruct (filter_assets_spec urls desired) as (out & Hrun & Hsel).
  exists out. repeat split; try done.
  - by eapply Selects_sublist.
  - by apply (Selects_elem_of _ _ _ _ Hsel).
  - by apply (Selects_elem_of _ _ _ _ Hsel).
  - by apply (Selects_elem_of _ _ _ _ Hsel).
Qed.

(** C4. Filtering the three URLs of the example against ['RFL_'] keeps the
    reflectance file alone; the name of the uncertainty file does not
    contain ['RFL_']. *)
Theorem filter_assets_rfl_example :
  filter_assets
    [[".../EMIT_RFL_001.nc"; ".../EMIT_RFLUNC_001.nc"; ".../EMIT_MASK_001.nc"]]
    desired_assets
  = Ok [".../EMIT_RFL_001.nc"] ∧
  desired_assets = ["RFL_"] ∧
  asset_name ".../EMIT_RFLUNC_001.nc" = Ok "EMIT_RFLUNC_001.nc" ∧
  Py.str_in "RFL_" "EMIT_RFLUNC_001.nc" = false ∧
  Py.str_in "RFL_" "RFLUNC" = false.
Proof. repeat split; reflexivity. Qed.

(** C6. With no desired substring the filter returns the empty list,
    whatever the URL lists are. *)
Theorem filter_assets_no_desired (urls : list (list string)) :
  filter_assets urls [] = Ok [].
Proof.
  destruct (filter_assets_spec urls []) as (out & -> & Hsel).
  f_equal. eapply Selects_none; [|done].
  intros url (seg & asset & _ & Hin & _). by apply elem_of_nil in Hin.
Qed.

(** C10. When the empty string is among the desired substrings the filter
    keeps every URL: its output is the flattening of the URL lists, in
    order. *)
Theorem filter_assets_empty_string (urls : list (list string)) (desired : list string) :
  "" ∈ desired →
  filter_assets urls desired = Ok (concat urls).
Proof.
  intros Hin. destruct (filter_assets_spec urls desired) as (out & -> & Hsel).
  f_equal. eapply Selects_all; [|done].
  intros url. destruct (asset_name_final url) as (seg & _ & Hseg).
  exists seg, "". split; [done|]. split; [done|]. by exists "", seg.
Qed.

Lemma filter_assets_empty_string_witness :
  "" ∈ ["RFL_"; ""] ∧
  filter_assets [["a/EMIT_RFL_1.nc"; "a/EMIT_MASK_1.nc"]; ["b/x"]] ["RFL_"; ""]
  = Ok (concat [["a/EMIT_RFL_1.nc"; "a/EMIT_MASK_1.nc"]; ["b/x"]]).
Proof.
  split; [|apply filter_assets_empty_string]; apply list_elem_of_In; simpl; auto.
Defined.

(** ** Chunked reading of a response body *)










(** ** The download loop (cell 33) *)

Lemma world_eta (w : world) : {| files := files w; trace := trace w |} = w.
Proof. by destruct w. Qed.

(** Writing the chunks one after the other appends them all to the
    open file and logs one write per chunk. *)
Lemma write_chunks (fp : string) (cs : list (list byte)) (w : world) (old : list byte) :
  files w !! fp = Some old →
  for_each cs (write fp) w =
  (Ok tt, {| files := <[fp := old ++ concat cs]> (files w);
             trace := trace w ++ (Write fp <$> cs) |}).
Proof.
  revert w old. induction cs as [|c cs IH]; intros w old Hold; simpl.
  - rewrite !app_nil_r, insert_id by done. by rewrite world_eta.
  - unfold mbind, M_bind, write at 1, log. simpl.
    erewrite IH; [|simpl; by rewrite lookup_alter_eq, Hold].
    simpl. f_equal. f_equal.
    + apply map_eq. intros p. destruct (decide (fp = p)) as [->|Hne].
      * by rewrite !lookup_insert_eq, app_assoc.
      * by rewrite !lookup_insert_ne, lookup_alter_ne.
    + by rewrite <- app_assoc.
Qed.

Lemma local_path_final (seg : string) :
  has_char "/" seg = false → FinalSegment (local_path seg) seg.
Proof. intros Hno. split; [done|]. right. by exists "../../data". Qed.

Lemma is_directory_local_path (seg : string) :
  has_char "/" seg = false → is_directory (local_path seg) = is_directory_name seg.
Proof.
  intros Hno. unfold is_directory.
  fold (asset_name (local_path seg)).
  by rewrite (asset_name_of_final _ _ (local_path_final seg Hno)).
Qed.



(** Reading the response to its end: the chunks received are appended to
    the open file, one write each, and the iteration ends as the transfer
    does. *)
Lemma write_received (fp : string) (src : response) (w : world) (old : list byte) :
  files w !! fp = Some old →
  (for_each (received chunk_size src) (λ chunk, write fp chunk) ≫=
     λ _, lift (stream_end src)) w =
  (stream_end src,
   {| files := <[fp := old ++ concat (received chunk_size src)]> (files w);
      trace := trace w ++ (Write fp <$> received chunk_size src) |}).
Proof.
  intros Hold. unfold mbind, M_bind.
  change (λ chunk, write fp chunk) with (write fp).
  by rewrite (write_chunks fp _ w old Hold).
Qed.

Lemma download_url_unfold (remote : string → option (list byte))
    (breaks : string → option nat) (url seg : string) (w : world) :
  asset_name url = Ok seg →
  download_url remote breaks url w =
  if bool_decide (is_Some (files w !! local_path seg)) then (Ok tt, w)
  else match remote url with
       | None => (Raise TransportError, log (Request url) w)
       | Some body =>
           if is_directory (local_path seg)
           then (Raise IsADirectoryError, log (Request url) w)
           else
             (for_each (received chunk_size {| content := body; cut := breaks url |})
                (λ chunk, write (local_path seg) chunk) ≫=
              λ _, lift (stream_end {| content := body; cut := breaks url |}))
               (log (OpenWrite (local_path seg))
                  {| files := <[local_path seg := []]> (files w);
                     trace := trace w ++ [Request url] |})
       end.
Proof.
  intros Hname. unfold download_url. rewrite Hname.
  unfold mbind at 1, M_bind at 1, lift at 1.
  unfold mbind at 1, M_bind at 1, isfile.
  destruct (bool_decide _); simpl negb; cbv iota; [done|].
  unfold mbind at 1, M_bind at 1, fs_get.
  destruct (remote url) as [body|]; [|done].
  unfold mbind at 1, M_bind at 1, open_wb. simpl files. simpl trace.
  by destruct (is_directory (local_path seg)).
Qed.

(** What one turn of the loop does, by cases on the destination path, on
    the answer of the server, on the asset name and on the transfer. *)
Lemma download_url_cases (remote : string → option (list byte))
    (breaks : string → option nat) (url : string) (w : world) :
  ∃ seg, FinalSegment url seg ∧
    ((is_Some (files w !! local_path seg) ∧
      download_url remote breaks url w = (Ok tt, w)) ∨
     (files w !! local_path seg = None ∧ remote url = None ∧
      download_url remote breaks url w = (Raise TransportError, log (Request url) w)) ∨
     (files w !! local_path seg = None ∧ is_Some (remote url) ∧
      is_directory_name seg = true ∧
      download_url remote breaks url w = (Raise IsADirectoryError, log (Request url) w)) ∨
     (files w !! local_path seg = None ∧ is_directory_name seg = false ∧
      ∃ body, remote url = Some body ∧
      download_url remote breaks url w =
      (stream_end {| content := body; cut := breaks url |},
       {| files := <[local_path seg :=
                       concat (received chunk_size {| content := body; cut := breaks url |})]>
                     (files w);
          trace := trace w ++ Request url :: OpenWrite (local_path seg)
                     :: (Write (local_path seg) <$>
                           received chunk_size {| content := body; cut := breaks url |}) |}))).
Proof.
  destruct (asset_name_final url) as (seg & Hname & Hseg).
  exists seg. split; [done|].
  rewrite (download_url_unfold _ _ _ _ _ Hname).
  destruct (files w !! local_path seg) as [old|] eqn:Hfile.
  - left. split; [by eexists|].
    by rewrite bool_decide_eq_true_2 by by eexists.
  - right. rewrite bool_decide_eq_false_2 by by intros [? ?].
    destruct (remote url) as [body|] eqn:Hremote; [right|by left].
    rewrite is_directory_local_path by by destruct Hseg.
    destruct (is_directory_name seg) eqn:Hdir; [left; by eauto|right].
    split; [done|]. split; [done|]. exists body. split; [done|].
    erewrite write_received; [|simpl; by rewrite lookup_insert_eq].
    simpl. rewrite insert_insert_eq. f_equal. f_equal. by rewrite <- !app_assoc.
Qed.

Lemma download_cons (remote : string → option (list byte))
    (breaks : string → option nat) (url : string) (links : list string) (w : world) :
  download_filtered remote breaks (url :: links) w =
  match download_url remote breaks url w with
  | (Ok _, w1) => download_filtered remote breaks links w1
  | (Raise e, w1) => (Raise e, w1)
  end.
Proof. reflexivity. Qed.

(** ** The log of a run *)

Lemma downloads_writes (p : string) (cs : list (list byte)) (rest : list event) :
  downloads ((Write p <$> cs) ++ rest) = downloads rest.
Proof. induction cs as [|c cs IH]; [done|]. simpl. exact IH. Qed.

Lemma downloads_block (url p : string) (cs : list (list byte)) (rest : list event) :
  downloads (Request url :: OpenWrite p :: (Write p <$> cs) ++ rest)
  = (url, p) :: downloads rest.
Proof.
  change (downloads (Request url :: OpenWrite p :: (Write p <$> cs) ++ rest))
    with ((url, p) :: downloads ((Write p <$> cs) ++ rest)).
  by rewrite downloads_writes.
Qed.

Lemma run_facts_nil (remote : string → option (list byte))
    (breaks : string → option nat) (links : list string) (w : world) (r : result unit) :
  run_facts remote breaks links w r w [].
Proof.
  split; [by rewrite app_nil_r|]. split; [done|].
  split; [by intros url ?%elem_of_nil|]. split; [by intros e p ?%elem_of_nil|].
  split; [by intros url p ?%elem_of_nil|]. split; [constructor|].
  intros p -> [? ?]. done.
Qed.

Lemma run_facts_skip (remote : string → option (list byte))
    (breaks : string → option nat) (url : string) (links : list string)
    (w w' : world) (r : result unit) (evs : list event) :
  run_facts remote breaks links w r w' evs →
  run_facts remote breaks (url :: links) w r w' evs.
Proof.
  intros (Htr & Hkeep & Hreq & Hwr & Hdl & Hnd & Hnew).
  split; [done|]. split; [done|]. split; [|split; [done|]; split; [|done]].
  - intros u Hu. destruct (Hreq u Hu) as [Hin Hfresh]. split; [by right|done].
  - intros u p Hup. destruct (Hdl u p Hup) as (Hin & Hrest). split; [by right|done].
Qed.

Lemma run_facts_fail (remote : string → option (list byte))
    (breaks : string → option nat) (url seg : string) (links : list string)
    (w : world) (r : result unit) :
  FinalSegment url seg → files w !! local_path seg = None →
  run_facts remote breaks (url :: links) w r (log (Request url) w) [Request url].
Proof.
  intros Hseg Hnone.
  split; [done|]. split; [done|]. split; [|split; [|split; [|split]]].
  - intros u Hu%list_elem_of_singleton. injection Hu as ->. split; [by left|].
    intros seg' Hseg'. by rewrite (FinalSegment_unique _ _ _ Hseg' Hseg).
  - by intros e p ->%list_elem_of_singleton.
  - by intros u p ?%elem_of_nil.
  - constructor.
  - simpl. intros p -> [? ?]. done.
Qed.

Lemma run_facts_block (remote : string → option (list byte))
    (breaks : string → option nat) (url seg : string) (body : list byte)
    (links : list string) (w w' : world) (r : result unit) (evs : list event) :
  let cs := received chunk_size {| content := body; cut := breaks url |} in
  let w1 := {| files := <[local_path seg := concat cs]> (files w);
               trace := trace w ++ Request url :: OpenWrite (local_path seg)
                          :: (Write (local_path seg) <$> cs) |} in
  FinalSegment url seg → files w !! local_path seg = None →
  remote url = Some body → (r = Ok tt → breaks url = None) →
  run_facts remote breaks links w1 r w' evs →
  run_facts remote breaks (url :: links) w r w'
    (Request url :: OpenWrite (local_path seg) :: (Write (local_path seg) <$> cs) ++ evs).
Proof.
  intros cs w1 Hseg Hnone Hbody Hok (Htr & Hkeep & Hreq & Hwr & Hdl & Hnd & Hnew).
  assert (Hsub : ∀ p c, files w !! p = Some c → files w1 !! p = Some c).
  { intros p c Hp. simpl. rewrite lookup_insert_ne; [done|]. congruence. }
  assert (Hnone1 : ∀ p, files w1 !! p = None → files w !! p = None).
  { intros p Hp. destruct (files w !! p) as [c|] eqn:Hc; [|done].
    apply Hsub in Hc. congruence. }
  assert (Hhere : files w1 !! local_path seg = Some (concat cs))
    by (simpl; apply lookup_insert_eq).
  unfold run_facts. rewrite downloads_block.
  split; [|split; [|split; [|split; [|split; [|split]]]]].
  - rewrite Htr. simpl. by rewrite <- app_assoc.
  - by auto.
  - intros u Hu. rewrite !elem_of_cons, elem_of_app in Hu.
    destruct Hu as [[= ->]|[?|[Hu|Hu]]]; [| done | |].
    + split; [by left|]. intros seg' Hseg'.
      by rewrite (FinalSegment_unique _ _ _ Hseg' Hseg).
    + by apply list_elem_of_fmap in Hu as (c & ? & _).
    + destruct (Hreq u Hu) as [Hin Hfresh]. split; [by right|by auto].
  - intros e p He Hp. rewrite !elem_of_cons, elem_of_app in He.
    destruct He as [->|[->|[He|He]]]; [done| | |].
    + injection Hp as <-. exists url. by left.
    + apply list_elem_of_fmap in He as (c & -> & _).
      injection Hp as <-. exists url. by left.
    + destruct (Hwr e p He Hp) as [u Hu]. exists u. by right.
  - intros u p Hup. apply elem_of_cons in Hup as [[= -> ->]|Hup].
    + split; [by left|]. split; [by left|]. split; [done|].
      split; [by exists seg|]. split; [|done].
      exists body. split; [done|]. by apply Hkeep.
    + destruct (Hdl u p Hup) as (Hin & Hrq & Hfresh & Hname & Hfile & Hbrk).
      split; [by right|]. split; [|by auto].
      rewrite !elem_of_cons, elem_of_app. by auto.
  - rewrite fmap_cons. simpl. constructor; [|done].
    intros Hin. apply list_elem_of_fmap in Hin as ([u p] & Hp & Hup). simpl in Hp. subst p.
    destruct (Hdl u _ Hup) as (_ & _ & Hfresh & _). congruence.
  - intros p Hp Hp'. destruct (decide (p = local_path seg)) as [->|Hne].
    + exists url. by left.
    + destruct (Hnew p) as [u Hu]; [simpl; by rewrite lookup_insert_ne|done|].
      exists u. by right.
Qed.

(** Every run of the loop, from any world and however it ends, satisfies
    [run_facts]. *)
Lemma download_log (remote : string → option (list byte))
    (breaks : string → option nat) (links : list string) (w : world) :
  ∃ evs, run_facts remote breaks links w
           (download_filtered remote breaks links w).1
           (download_filtered remote breaks links w).2 evs.
Proof.
  revert w. induction links as [|url links IH]; intros w.
  { exists []. apply run_facts_nil. }
  rewrite download_cons.
  destruct (download_url_cases remote breaks url w)
    as (seg & Hseg & [[Hsome ->]|[(Hnone & _ & ->)|[(Hnone & _ & _ & ->)|
                       (Hnone & _ & body & Hbody & ->)]]]).
  - destruct (IH w) as [evs Hevs]. exists evs. by apply run_facts_skip.
  - exists [Request url]. by eapply run_facts_fail.
  - exists [Request url]. by eapply run_facts_fail.
  - remember (stream_end {| content := body; cut := breaks url |}) as st eqn:Hst.
    destruct st as [[]|e].
    + assert (breaks url = None) as Hbrk.
      { unfold stream_end in Hst. simpl in Hst. by destruct (breaks url). }
      match goal with |- context [download_filtered _ _ links ?w1] =>
        destruct (IH w1) as [evs Hevs] end.
      eexists. by eapply (run_facts_block remote breaks url seg body).
    + eexists. eapply (run_facts_block remote breaks url seg body); try done.
      apply run_facts_nil.
Qed.

(** The loop as a whole, from any world and whether or not it ends in an
    exception: files that were there are left as they were, a request is
    sent only for a listed URL whose destination was not there, and a path
    is opened or written only if it was not there and is the destination of
    a listed URL. *)
Lemma download_frame (remote : string → option (list byte))
    (breaks : string → option nat) (links : list string) (w : world) :
  (∀ p c, files w !! p = Some c →
     files (download_filtered remote breaks links w).2 !! p = Some c) ∧
  (∀ p, files w !! p = None →
        is_Some (files (download_filtered remote breaks links w).2 !! p) →
        ∃ url seg, url ∈ links ∧ FinalSegment url seg ∧ p = local_path seg) ∧
  ∃ evs, trace (download_filtered remote breaks links w).2 = trace w ++ evs ∧
    ∀ e, e ∈ evs →
      (∀ url, requested e = Some url →
         url ∈ links ∧ ∀ seg, FinalSegment url seg → files w !! local_path seg = None) ∧
      (∀ p, written_path e = Some p →
         files w !! p = None ∧
         ∃ url seg, url ∈ links ∧ FinalSegment url seg ∧ p = local_path seg).
Proof.
  destruct (download_log remote breaks links w)
    as (evs & Htr & Hkeep & Hreq & Hwr & Hdl & _ & Hnew).
  split; [done|]. split.
  - intros p Hp Hp'. destruct (Hnew p Hp Hp') as [url Hurl].
    destruct (Hdl url p Hurl) as (Hin & _ & _ & (seg & Hseg & ->) & _).
    by exists url, seg.
  - exists evs. split; [done|]. intros e He. split.
    + intros url Hurl. destruct e; try done. injection Hurl as ->. by apply Hreq.
    + intros p Hp. destruct (Hwr e p He Hp) as [url Hurl].
      destruct (Hdl url p Hurl) as (Hin & _ & Hfresh & (seg & Hseg & ->) & _).
      split; [done|]. by exists url, seg.
Qed.


(** After a run that did not raise, every listed URL has its file. *)
Lemma download_all_present (remote : string → option (list byte))
    (breaks : string → option nat) (links : list string) (w : world) :
  (download_filtered remote breaks links w).1 = Ok tt →
  ∀ url seg, url ∈ links → FinalSegment url seg →
    is_Some (files (download_filtered remote breaks links w).2 !! local_path seg).
Proof.
  revert w. induction links as [|url links IH]; intros w Hok u s Hu Hs.
  { by apply elem_of_nil in Hu. }
  rewrite download_cons in *.
  destruct (download_url_cases remote breaks url w)
    as (seg & Hseg & [[Hsome Hrun]|[(Hnone & Hno & Hrun)|[(Hnone & _ & _ & Hrun)|
                       (Hnone & _ & body & Hbody & Hrun)]]]);
    rewrite Hrun in *; [| done | done |].
  - apply elem_of_cons in Hu as [->|Hu]; [|by eauto].
    rewrite (FinalSegment_unique _ _ _ Hs Hseg).
    destruct Hsome as [c Hc].
    destruct (download_frame remote breaks links w) as (Hkeep & _). by eexists; eauto.
  - destruct (stream_end _) as [[]|e]; [|done].
    apply elem_of_cons in Hu as [->|Hu]; [|by eauto].
    rewrite (FinalSegment_unique _ _ _ Hs Hseg).
    match goal with |- context [download_filtered _ _ links ?w1] =>
      destruct (download_frame remote breaks links w1) as (Hkeep & _) end.
    eexists. apply Hkeep. simpl. apply lookup_insert_eq.
Qed.




(** C3. When the destination of a URL is already a local file, whatever it
    holds, the turn of the loop for that URL changes nothing: no request, no
    write.  Over the whole loop, on any list of URLs and also when the loop
    ends in an exception, no request is sent for that URL, its destination
    is neither opened nor written, and every file that was there before the
    loop holds what it held. *)
Theorem download_skips_existing (remote : string → option (list byte))
    (breaks : string → option nat)
    (links : list string) (url seg : string) (old : list byte) (w : world) :
  FinalSegment url seg →
  files w !! local_path seg = Some old →
  download_url remote breaks url w = (Ok tt, w) ∧
  files (download_filtered remote breaks links w).2 !! local_path seg = Some old ∧
  (∀ p c, files w !! p = Some c →
     files (download_filtered remote breaks links w).2 !! p = Some c) ∧
  ∃ evs, trace (download_filtered remote breaks links w).2 = trace w ++ evs ∧
    (Request url ∉ evs) ∧
    (OpenWrite (local_path seg) ∉ evs) ∧
    (∀ chunk, Write (local_path seg) chunk ∉ evs).
Proof.
  intros Hseg Hold. split.
  { destruct (download_url_cases remote breaks url w)
      as (seg' & Hseg' & [[_ Hrun]|[(Hnone & _)|[(Hnone & _)|(Hnone & _)]]]);
      pose proof (FinalSegment_unique _ _ _ Hseg' Hseg) as ->; [done|congruence..]. }
  destruct (download_frame remote breaks links w) as (Hkeep & _ & evs & Htr & Hev).
  split; [by auto|]. split; [done|].
  exists evs. split; [done|]. split; [|split].
  - intros He. destruct (Hev _ He) as [Hreq _].
    destruct (Hreq url eq_refl) as [_ Hfresh]. specialize (Hfresh seg Hseg). congruence.
  - intros He. destruct (Hev _ He) as [_ Hwr].
    destruct (Hwr _ eq_refl) as [Hfresh _]. congruence.
  - intros chunk He. destruct (Hev _ He) as [_ Hwr].
    destruct (Hwr _ eq_refl) as [Hfresh _]. congruence.
Qed.

Lemma download_skips_existing_witness :
  download_url Sample.remote Sample.unbroken Sample.url Sample.interrupted
    = (Ok tt, Sample.interrupted) ∧
  files (download_filtered Sample.remote Sample.unbroken [Sample.url; Sample.url]
           Sample.interrupted).2
    !! "../../data/EMIT_L2A_RFL_001.nc" = Some [x45; x4d].
Proof.
  destruct (download_skips_existing Sample.remote Sample.unbroken [Sample.url; Sample.url]
              Sample.url Sample.name [x45; x4d] Sample.interrupted)
    as (Hstep & Hfile & _).
  - split; [reflexivity|]. right. exists "https://data.example/lp". reflexivity.
  - reflexivity.
  - split; [exact Hstep|exact Hfile].
Defined.




(** ** The streaming step (cell 31) *)

Lemma index_first {A : Type} (x : A) (rest : list A) : Py.index (x :: rest) 0 = Ok x.
Proof.
  unfold Py.index. simpl length.
  replace (0 <? 0) with false by reflexivity.
  replace (Z.of_nat (S (length rest)) <=? 0) with false
    by (symmetry; apply Z.leb_gt; lia).
  reflexivity.
Qed.

Lemma stream_nil (remote : string → option (list byte)) (dataset : Type)
    (emit_xarray : list byte → result dataset) (w : world) :
  stream remote dataset emit_xarray [] w = (Raise IndexError, w).
Proof. reflexivity. Qed.

Lemma stream_cons (remote : string → option (list byte)) (dataset : Type)
    (emit_xarray : list byte → result dataset) (url : string) (rest : list string)
    (w : world) :
  stream remote dataset emit_xarray (url :: rest) w =
  match remote url with
  | Some body => (emit_xarray body, log (Request url) w)
  | None => (Raise TransportError, log (Request url) w)
  end.
Proof.
  unfold stream, mbind, M_bind, lift. rewrite index_first. cbv beta iota.
  destruct (asset_name_final url) as (seg & -> & _).
  unfold fs_open, fs_get, mret, M_ret.
  destruct (remote url) as [body|]; [|done]. by destruct (emit_xarray body).
Qed.

(** The filter returns the empty list exactly when no URL is wanted. *)
Lemma filter_assets_nil_iff (urls : list (list string)) (desired : list string) :
  filter_assets urls desired = Ok [] ↔
  ∀ url, url ∈ concat urls → ¬ Wanted desired url.
Proof.
  destruct (filter_assets_spec urls desired) as (out & Hrun & Hsel).
  rewrite Hrun. split.
  - intros [= ->] url Hin Hw.
    assert (url ∈ @nil string) as Hnil by by apply (Selects_elem_of _ _ _ _ Hsel).
    by apply elem_of_nil in Hnil.
  - intros Hnone. f_equal. destruct out as [|url out]; [done|].
    assert (url ∈ concat urls ∧ Wanted desired url) as [Hin Hw].
    { apply (Selects_elem_of _ _ _ _ Hsel). by left. }
    by destruct (Hnone url Hin).
Qed.

(** C9. The streaming step takes element [0] of the filtered list before
    anything else.  On the empty list it raises [IndexError] and does
    nothing; so do cells 27 to 31 run in a row when the search found no
    granule, and when the filter keeps no URL, which is when no URL of the
    results is wanted.  On a list with a first element the index does not
    raise and the step goes on to open that URL. *)
Theorem stream_first_link (remote : string → option (list byte)) (dataset : Type)
    (emit_xarray : list byte → result dataset) (results : list granule)
    (desired : list string) (url : string) (rest : list string) (w : world) :
  filter_assets (emit_results_urls results) desired = Ok [] →
  (∀ u, u ∈ concat (emit_results_urls results) → ¬ Wanted desired u) ∧
  filter_then_stream remote dataset emit_xarray results desired w
    = (Raise IndexError, w) ∧
  filter_then_stream remote dataset emit_xarray [] desired w
    = (Raise IndexError, w) ∧
  stream remote dataset emit_xarray [] w = (Raise IndexError, w) ∧
  Py.index (url :: rest) 0 = Ok url ∧
  stream remote dataset emit_xarray (url :: rest) w =
    match remote url with
    | Some body => (emit_xarray body, log (Request url) w)
    | None => (Raise TransportError, log (Request url) w)
    end.
Proof.
  intros Hnil. split; [by apply filter_assets_nil_iff|].
  split; [unfold filter_then_stream; by rewrite Hnil|].
  split; [done|]. split; [done|]. split; [apply index_first|apply stream_cons].
Qed.

Lemma stream_first_link_witness :
  filter_then_stream Sample.remote nat (λ b, Ok (length b)) Sample.mask_only
    desired_assets Sample.empty_dir
  = (Raise IndexError, Sample.empty_dir).
Proof.
  destruct (stream_first_link Sample.remote nat (λ b, Ok (length b))
              Sample.mask_only desired_assets Sample.url [] Sample.empty_dir)
    as (_ & Hrun & _).
  - reflexivity.
  - exact Hrun.
Defined.

(** ** The bounding box (cell 14) *)

Section BoundingBoxFacts.

Context {coord : Type} (leb : coord → coord → bool).
Hypothesis leb_total : ∀ a b, leb a b = true ∨ leb b a = true.
Hypothesis leb_trans : ∀ a b c, leb a b = true → leb b c = true → leb a c = true.

Lemma cmin_cases (a b : coord) :
  (cmin coord leb a b = a ∧ leb a b = true) ∨ (cmin coord leb a b = b ∧ leb b a = true).
Proof.
  unfold cmin. destruct (leb a b) eqn:Hab; [by left|right].
  split; [done|]. destruct (leb_total a b); [congruence|done].
Qed.

Lemma cmax_cases (a b : coord) :
  (cmax coord leb a b = b ∧ leb a b = true) ∨ (cmax coord leb a b = a ∧ leb b a = true).
Proof.
  unfold cmax. destruct (leb a b) eqn:Hab; [by left|right].
  split; [done|]. destruct (leb_total a b); [congruence|done].
Qed.

Lemma leb_refl (a : coord) : leb a a = true.
Proof. by destruct (leb_total a a). Qed.

Lemma foldl_cmin_IsMin (x : coord) (l : list coord) :
  IsMin leb (foldl (cmin coord leb) x l) (x :: l).
Proof.
  revert x. induction l as [|y l IH]; intros x; simpl.
  - split; [by left|]. intros z ->%list_elem_of_singleton. apply leb_refl.
  - destruct (IH (cmin coord leb x y)) as [Hin Hle]. split.
    + apply elem_of_cons in Hin as [->|Hin].
      * destruct (cmin_cases x y) as [[-> _]|[-> _]];
          rewrite !elem_of_cons; auto.
      * rewrite !elem_of_cons; auto.
    + assert (leb (foldl (cmin coord leb) (cmin coord leb x y) l) (cmin coord leb x y) = true)
        as Hm by (apply Hle; by left).
      intros z Hz. rewrite !elem_of_cons in Hz. destruct Hz as [->|[->|Hz]].
      * eapply leb_trans; [exact Hm|].
        destruct (cmin_cases x y) as [[-> _]|[-> ?]]; [apply leb_refl|done].
      * eapply leb_trans; [exact Hm|].
        destruct (cmin_cases x y) as [[-> ?]|[-> _]]; [done|apply leb_refl].
      * apply Hle. by right.
Qed.

Lemma foldl_cmax_IsMax (x : coord) (l : list coord) :
  IsMax leb (foldl (cmax coord leb) x l) (x :: l).
Proof.
  revert x. induction l as [|y l IH]; intros x; simpl.
  - split; [by left|]. intros z ->%list_elem_of_singleton. apply leb_refl.
  - destruct (IH (cmax coord leb x y)) as [Hin Hle]. split.
    + apply elem_of_cons in Hin as [->|Hin].
      * destruct (cmax_cases x y) as [[-> _]|[-> _]];
          rewrite !elem_of_cons; auto.
      * rewrite !elem_of_cons; auto.
    + assert (leb (cmax coord leb x y) (foldl (cmax coord leb) (cmax coord leb x y) l) = true)
        as Hm by (apply Hle; by left).
      intros z Hz. rewrite !elem_of_cons in Hz. destruct Hz as [->|[->|Hz]].
      * eapply leb_trans; [|exact Hm].
        destruct (cmax_cases x y) as [[-> ?]|[-> _]]; [done|apply leb_refl].
      * eapply leb_trans; [|exact Hm].
        destruct (cmax_cases x y) as [[-> _]|[-> ?]]; [apply leb_refl|done].
      * apply Hle. by right.
Qed.

End BoundingBoxFacts.

(** C5. For a polygon with at least one vertex, over coordinates compared
    by a total and transitive order, the bounding box is the 4-tuple
    [(min_lon, min_lat, max_lon, max_lat)]: the least and the greatest
    longitude and latitude found among the vertices. *)
Theorem bbox_is_extent (coord : Type) (leb : coord → coord → bool)
    (polygon : list (coord * coord)) :
  (∀ a b, leb a b = true ∨ leb b a = true) →
  (∀ a b c, leb a b = true → leb b c = true → leb a c = true) →
  polygon ≠ [] →
  ∃ min_lon min_lat max_lon max_lat,
    bbox coord leb polygon = Some [min_lon; min_lat; max_lon; max_lat] ∧
    IsMin leb min_lon (fst <$> polygon) ∧
    IsMin leb min_lat (snd <$> polygon) ∧
    IsMax leb max_lon (fst <$> polygon) ∧
    IsMax leb max_lat (snd <$> polygon).
Proof.
  intros Htotal Htrans Hne. destruct polygon as [|[x y] vs]; [done|].
  do 4 eexists. split; [reflexivity|]. simpl.
  split; [by apply foldl_cmin_IsMin|]. split; [by apply foldl_cmin_IsMin|].
  split; by apply foldl_cmax_IsMax.
Qed.

Lemma bbox_is_extent_witness :
  ∃ min_lon min_lat max_lon max_lat,
    bbox Z Z.leb Sample.ring = Some [min_lon; min_lat; max_lon; max_lat] ∧
    IsMin Z.leb min_lon (fst <$> Sample.ring) ∧
    IsMin Z.leb min_lat (snd <$> Sample.ring) ∧
    IsMax Z.leb max_lon (fst <$> Sample.ring) ∧
    IsMax Z.leb max_lat (snd <$> Sample.ring).
Proof.
  apply (bbox_is_extent Z Z.leb Sample.ring).
  - intros a b. rewrite !Z.leb_le. lia.
  - intros a b c. rewrite !Z.leb_le. lia.
  - discriminate.
Defined.


(** * Further properties of the notebook's code *)

(** ** List subscripts (cells 23, 29, 31, 33) *)

(** X1. A subscript [l[i]] succeeds exactly for [-len(l) <= i < len(l)], and
    then yields the element at position [i mod len(l)]; outside that range
    it raises [IndexError].  In particular [l[0]] and [l[-1]] raise exactly
    on the empty list. *)
Theorem index_in_range {A : Type} (l : list A) (i : Z) :
  (- Z.of_nat (length l) <= i < Z.of_nat (length l) →
     ∃ x, Py.index l i = Ok x ∧ l !! Z.to_nat (i mod Z.of_nat (length l)) = Some x) ∧
  (¬ (- Z.of_nat (length l) <= i < Z.of_nat (length l)) →
     Py.index l i = Raise IndexError) ∧
  (Py.index l 0 = Raise IndexError ↔ l = []) ∧
  (Py.index l (-1) = Raise IndexError ↔ l = []).
Proof.
  assert (Hin : - Z.of_nat (length l) <= i < Z.of_nat (length l) →
     ∃ x, Py.index l i = Ok x ∧ l !! Z.to_nat (i mod Z.of_nat (length l)) = Some x).
  { intros Hi. unfold Py.index.
    set (n := Z.of_nat (length l)) in *.
    assert (Hj : (if i <? 0 then i + n else i) = i mod n).
    { destruct (Z.ltb_spec i 0).
      - apply (Z.mod_unique_pos i n (-1) (i + n)); lia.
      - symmetry. apply Z.mod_small. lia. }
    rewrite Hj.
    assert (0 <= i mod n < n) as Hm by (apply Z.mod_pos_bound; lia).
    replace (i mod n <? 0) with false by (symmetry; apply Z.ltb_ge; lia).
    replace (n <=? i mod n) with false by (symmetry; apply Z.leb_gt; lia).
    simpl. destruct (l !! Z.to_nat (i mod n)) as [x|] eqn:Hx; [by exists x|].
    apply lookup_ge_None in Hx. unfold n in *. lia. }
  assert (Hout : ¬ (- Z.of_nat (length l) <= i < Z.of_nat (length l)) →
     Py.index l i = Raise IndexError).
  { intros Hi. unfold Py.index.
    set (n := Z.of_nat (length l)) in *.
    destruct (Z.ltb_spec i 0).
    - replace (i + n <? 0) with true; [done|]. symmetry. apply Z.ltb_lt. lia.
    - replace (i <? 0) with false by (symmetry; apply Z.ltb_ge; lia).
      replace (n <=? i) with true; [done|]. symmetry. apply Z.leb_le. lia. }
  split; [done|]. split; [done|]. split.
  - split; [|by intros ->]. destruct l as [|x l]; [done|].
    by rewrite index_first.
  - split; [|by intros ->]. destruct l as [|x l _] using rev_ind; [done|].
    by rewrite index_last.
Qed.

(** With no search result, cell 23 raises [IndexError]; with at least one
    it shows the first. *)
Lemma first_granule_cases (results : list granule) :
  match results with
  | [] => first_granule results = Raise IndexError
  | g :: _ => first_granule results = Ok g
  end.
Proof. destruct results; [done|apply index_first]. Qed.

(** ** Asset names (cells 29, 31, 33) *)

Lemma FinalSegment_after_slash (pre s seg : string) :
  FinalSegment s seg → FinalSegment (pre +:+ String "/" s) seg.
Proof.
  intros [Hno [->|[pre' ->]]]; (split; [done|]); right.
  - by exists pre.
  - exists (pre +:+ String "/" pre'). by rewrite str_app_assoc.
Qed.

(** X3. Only what follows a ['/'] counts for the asset name: whatever is put
    in front of a ['/'] does not change it.  So the name read back from the
    local path of a name is the name of that name, a URL that ends in ['/']
    has the empty name, and a string without ['/'] is its own name. *)
Theorem asset_name_after_slash (pre s : string) :
  asset_name (pre +:+ String "/" s) = asset_name s ∧
  asset_name (local_path s) = asset_name s ∧
  asset_name (pre +:+ "/") = Ok "" ∧
  (has_char "/" s = false → asset_name s = Ok s).
Proof.
  assert (Hlaw : ∀ p t, asset_name (p +:+ String "/" t) = asset_name t).
  { intros p t. destruct (asset_name_final t) as (seg & -> & Hseg).
    apply asset_name_of_final. by apply FinalSegment_after_slash. }
  split; [apply Hlaw|]. split; [apply (Hlaw "../../data")|].
  split; [apply (Hlaw pre "")|].
  intros Hno. apply asset_name_of_final. split; [done|by left].
Qed.

(** X4. The asset name of a URL is a fixed point: taking the name of the
    name, or of the local path built from it, gives the name again. *)
Theorem asset_name_idempotent (url name : string) :
  asset_name url = Ok name →
  asset_name name = Ok name ∧
  asset_name (local_path name) = Ok name ∧
  has_char "/" name = false.
Proof.
  intros Hname. destruct (asset_name_final url) as (seg & Hrun & [Hno Hseg]).
  assert (seg = name) as -> by congruence.
  assert (asset_name name = Ok name) as Hfix
    by (apply asset_name_of_final; split; [done|by left]).
  split; [done|]. split; [|done].
  apply asset_name_of_final, local_path_final. done.
Qed.

Lemma asset_name_idempotent_witness :
  asset_name "EMIT_L2A_RFL_001.nc" = Ok "EMIT_L2A_RFL_001.nc" ∧
  asset_name "../../data/EMIT_L2A_RFL_001.nc" = Ok "EMIT_L2A_RFL_001.nc".
Proof.
  destruct (asset_name_idempotent Sample.url Sample.name) as (H1 & H2 & _).
  - reflexivity.
  - split; [exact H1|exact H2].
Defined.

(** Two names give the same local path only if they are the same name. *)
Lemma local_path_inj (a b : string) : local_path a = local_path b → a = b.
Proof. unfold local_path. apply String.app_inj. Qed.

(** ** More on selection *)

Lemma Selects_ext {A : Type} (P Q : A → Prop) (l out : list A) :
  (∀ x, P x ↔ Q x) → Selects P l out → Selects Q l out.
Proof.
  intros HPQ. induction 1 as [|x l out Hx _ IH|x l out Hx _ IH].
  - constructor.
  - apply Selects_keep; [by apply HPQ|done].
  - apply Selects_drop; [by rewrite <- HPQ|done].
Qed.

Lemma Selects_mono {A : Type} (P Q : A → Prop) (l o1 o2 : list A) :
  (∀ x, P x → Q x) → Selects P l o1 → Selects Q l o2 → o1 `sublist_of` o2.
Proof.
  intros HPQ H1. revert o2.
  induction H1 as [|x l out Hx _ IH|x l out Hx _ IH]; intros o2 H2;
    inversion H2; subst.
  - constructor.
  - apply sublist_skip. auto.
  - exfalso. auto.
  - apply sublist_cons. auto.
  - auto.
Qed.

Lemma Selects_idem {A : Type} (P : A → Prop) (l out : list A) :
  Selects P l out → Selects P out out.
Proof. induction 1; [constructor|by constructor|done]. Qed.

Lemma Selects_first {A : Type} (P : A → Prop) (pre post out : list A) (x : A) :
  (∀ y, y ∈ pre → ¬ P y) → P x → Selects P (pre ++ x :: post) out →
  ∃ out', out = x :: out'.
Proof.
  revert out. induction pre as [|y pre IH]; intros out Hpre Hx Hsel; simpl in Hsel.
  - inversion Hsel; subst; [by eexists|done].
  - inversion Hsel; subst.
    + exfalso. apply (Hpre y); [by left|done].
    + apply IH; [|done..]. intros z Hz. apply Hpre. by right.
Qed.

Lemma Substring_refl (s : string) : Substring s s.
Proof. exists "", "". by rewrite str_app_nil_r. Qed.

Lemma Substring_trans (a b c : string) : Substring a b → Substring b c → Substring a c.
Proof.
  intros (p1 & q1 & ->) (p2 & q2 & ->). exists (p2 +:+ p1), (q1 +:+ q2).
  by rewrite !str_app_assoc.
Qed.

Lemma Substring_has_char (c : ascii) (a s : string) :
  Substring a s → has_char c a = true → has_char c s = true.
Proof.
  intros (pre & post & ->) Ha. rewrite !has_char_app, Ha.
  by rewrite orb_true_r.
Qed.

(** The test of cell 29 says yes exactly for the wanted URLs, and never
    raises. *)
Lemma is_desired_spec (desired : list string) (url : string) :
  (is_desired desired url = Ok true ∧ Wanted desired url) ∨
  (is_desired desired url = Ok false ∧ ¬ Wanted desired url).
Proof.
  destruct (filter_url_spec desired [] url) as [[Hw Hrun]|[Hw Hrun]];
    [left|right]; (split; [|done]);
    unfold filter_url in Hrun; unfold is_desired;
    destruct (asset_name url) as [name|e]; try done;
    unfold mbind, result_bind in *;
    by destruct (Py.any _ desired).
Qed.

Lemma is_desired_true (desired : list string) (url : string) :
  is_desired desired url = Ok true → Wanted desired url.
Proof. destruct (is_desired_spec desired url) as [[_ ?]|[-> _]]; [done|discriminate]. Qed.

Lemma is_desired_false (desired : list string) (url : string) :
  is_desired desired url = Ok false → ¬ Wanted desired url.
Proof. destruct (is_desired_spec desired url) as [[-> _]|[_ ?]]; [discriminate|done]. Qed.

(** ** Laws of the asset filter (cell 29) *)

(** X5. Filtering the URL lists of two searches put one after the other
    gives the two filtered lists one after the other. *)
Theorem filter_assets_app (urls1 urls2 : list (list string)) (desired : list string) :
  ∃ out1 out2,
    filter_assets urls1 desired = Ok out1 ∧
    filter_assets urls2 desired = Ok out2 ∧
    filter_assets (urls1 ++ urls2) desired = Ok (out1 ++ out2).
Proof.
  destruct (filter_assets_spec urls1 desired) as (o1 & H1 & S1).
  destruct (filter_assets_spec urls2 desired) as (o2 & H2 & S2).
  destruct (filter_assets_spec (urls1 ++ urls2) desired) as (o & H & S).
  exists o1, o2. split; [done|]. split; [done|]. rewrite H. f_equal.
  rewrite concat_app in S. eapply Selects_unique; [done|by apply Selects_app].
Qed.

(** X6. How the URLs are grouped by granule plays no part: the filter gives
    the same list as on the single granule that holds all the URLs. *)
Theorem filter_assets_grouping (urls : list (list string)) (desired : list string) :
  filter_assets urls desired = filter_assets [concat urls] desired.
Proof.
  destruct (filter_assets_spec urls desired) as (o1 & -> & S1).
  destruct (filter_assets_spec [concat urls] desired) as (o2 & -> & S2).
  f_equal. simpl in S2. rewrite app_nil_r in S2. by eapply Selects_unique.
Qed.

(** X7. Filtering a filtered list again, with the same desired substrings,
    changes nothing. *)
Theorem filter_assets_idempotent (urls : list (list string)) (desired out : list string) :
  filter_assets urls desired = Ok out →
  filter_assets [out] desired = Ok out.
Proof.
  intros Hrun. destruct (filter_assets_spec urls desired) as (o1 & H1 & S1).
  assert (o1 = out) as -> by congruence.
  destruct (filter_assets_spec [out] desired) as (o2 & -> & S2).
  f_equal. simpl in S2. rewrite app_nil_r in S2.
  eapply Selects_unique; [done|by eapply Selects_idem].
Qed.

Lemma filter_assets_idempotent_witness :
  filter_assets [["a/EMIT_L2A_RFL_1.nc"]] desired_assets = Ok ["a/EMIT_L2A_RFL_1.nc"].
Proof.
  apply (filter_assets_idempotent
           [["a/EMIT_L2A_RFL_1.nc"; "a/EMIT_L2A_MASK_1.nc"]] desired_assets).
  reflexivity.
Defined.

(** X8. The filter uses the desired substrings as a set: their order and
    repetitions in [desired_assets] do not change the result. *)
Theorem filter_assets_desired_set (urls : list (list string)) (d1 d2 : list string) :
  (∀ asset, asset ∈ d1 ↔ asset ∈ d2) →
  filter_assets urls d1 = filter_assets urls d2.
Proof.
  intros Hset.
  destruct (filter_assets_spec urls d1) as (o1 & -> & S1).
  destruct (filter_assets_spec urls d2) as (o2 & -> & S2).
  f_equal. eapply Selects_unique; [|done].
  eapply Selects_ext; [|done]. intros url. unfold Wanted.
  split; intros (seg & asset & ? & ? & ?); exists seg, asset;
    (split; [done|]); (split; [|done]); by apply Hset.
Qed.

Lemma filter_assets_desired_set_witness :
  filter_assets [[Sample.url; "https://data.example/lp/EMIT_L2A_MASK_001.nc"]] ["RFL_"; "MASK"]
  = filter_assets [[Sample.url; "https://data.example/lp/EMIT_L2A_MASK_001.nc"]] ["MASK"; "RFL_"; "MASK"].
Proof.
  apply filter_assets_desired_set.
  intros asset. rewrite !elem_of_cons. tauto.
Defined.

(** X9. When every desired substring of a second list contains one of a first
    list, whatever the second list keeps the first keeps too, in the same
    order.  So does a longer list of desired substrings against a part of
    it, and ['RFL'] against ['RFL_']. *)
Theorem filter_assets_monotone (urls : list (list string)) (d1 d2 : list string) :
  (∀ b, b ∈ d2 → ∃ a, a ∈ d1 ∧ Substring a b) →
  ∃ out1 out2,
    filter_assets urls d1 = Ok out1 ∧
    filter_assets urls d2 = Ok out2 ∧
    out2 `sublist_of` out1.
Proof.
  intros Hsub.
  destruct (filter_assets_spec urls d1) as (o1 & H1 & S1).
  destruct (filter_assets_spec urls d2) as (o2 & H2 & S2).
  exists o1, o2. split; [done|]. split; [done|].
  eapply Selects_mono; [|done..].
  intros url (seg & b & Hseg & Hb & Hbs).
  destruct (Hsub b Hb) as (a & Ha & Hab).
  exists seg, a. split; [done|]. split; [done|]. by eapply Substring_trans.
Qed.

Lemma filter_assets_monotone_witness :
  ∃ out1 out2,
    filter_assets [[".../EMIT_RFL_001.nc"; ".../EMIT_RFLUNC_001.nc"]] ["RFL"] = Ok out1 ∧
    filter_assets [[".../EMIT_RFL_001.nc"; ".../EMIT_RFLUNC_001.nc"]] ["RFL_"] = Ok out2 ∧
    out2 `sublist_of` out1.
Proof.
  apply filter_assets_monotone.
  intros b Hb. apply list_elem_of_singleton in Hb. subst b.
  exists "RFL". split; [apply list_elem_of_singleton; reflexivity|].
  exists "", "_". reflexivity.
Defined.

(** X10. Filtering for two lists of desired substrings at once keeps the URLs
    that either list keeps on its own, and each of the two results is a
    subsequence of the joint one. *)
Theorem filter_assets_union (urls : list (list string)) (d1 d2 : list string) :
  ∃ out1 out2 out,
    filter_assets urls d1 = Ok out1 ∧
    filter_assets urls d2 = Ok out2 ∧
    filter_assets urls (d1 ++ d2) = Ok out ∧
    (∀ url, url ∈ out ↔ url ∈ out1 ∨ url ∈ out2) ∧
    out1 `sublist_of` out ∧ out2 `sublist_of` out.
Proof.
  destruct (filter_assets_spec urls d1) as (o1 & H1 & S1).
  destruct (filter_assets_spec urls d2) as (o2 & H2 & S2).
  destruct (filter_assets_spec urls (d1 ++ d2)) as (o & H & S).
  exists o1, o2, o. split; [done|]. split; [done|]. split; [done|].
  assert (Hw : ∀ url, Wanted (d1 ++ d2) url ↔ Wanted d1 url ∨ Wanted d2 url).
  { intros url. unfold Wanted. split.
    - intros (seg & asset & Hseg & Hin & Hsub).
      apply elem_of_app in Hin as [Hin|Hin]; [left|right]; by exists seg, asset.
    - intros [(seg & asset & Hseg & Hin & Hsub)|(seg & asset & Hseg & Hin & Hsub)];
        exists seg, asset; (split; [done|]); (split; [|done]);
        apply elem_of_app; auto. }
  split; [|split].
  - intros url.
    rewrite (Selects_elem_of _ _ _ url S), (Selects_elem_of _ _ _ url S1),
      (Selects_elem_of _ _ _ url S2), Hw. tauto.
  - eapply Selects_mono; [|exact S1|exact S]. intros url ?. apply Hw. by left.
  - eapply Selects_mono; [|exact S2|exact S]. intros url ?. apply Hw. by right.
Qed.

(** X11. The test looks at the asset name only, which holds no ['/']: when
    every desired substring contains a ['/'], nothing is kept. *)
Theorem filter_assets_slash (urls : list (list string)) (desired : list string) :
  (∀ asset, asset ∈ desired → has_char "/" asset = true) →
  filter_assets urls desired = Ok [].
Proof.
  intros Hslash. destruct (filter_assets_spec urls desired) as (out & -> & Hsel).
  f_equal. eapply Selects_none; [|done].
  intros url (seg & asset & [Hno _] & Hin & Hsub).
  pose proof (Substring_has_char "/" asset seg Hsub (Hslash asset Hin)). congruence.
Qed.

Lemma filter_assets_slash_witness :
  filter_assets [["https://data.example/lp/EMIT_L2A_RFL_001.nc"]] ["lp/EMIT"] = Ok [].
Proof.
  apply filter_assets_slash.
  intros asset Hin. apply list_elem_of_singleton in Hin. subst asset. reflexivity.
Defined.

(** ** Filter, then stream (cells 27, 29, 31) *)

(** X12. Run after the filter, the streaming step opens the first wanted URL
    of the search results, in the order of the granules and of their links,
    and no other; it leaves the local files alone. *)
Theorem filter_then_stream_first (remote : string → option (list byte))
    (dataset : Type) (emit_xarray : list byte → result dataset)
    (results : list granule) (desired pre post : list string) (url : string)
    (w : world) :
  concat (emit_results_urls results) = pre ++ url :: post →
  (∀ u, u ∈ pre → is_desired desired u = Ok false) →
  is_desired desired url = Ok true →
  filter_then_stream remote dataset emit_xarray results desired w =
    match remote url with
    | Some body => (emit_xarray body, log (Request url) w)
    | None => (Raise TransportError, log (Request url) w)
    end ∧
  files (filter_then_stream remote dataset emit_xarray results desired w).2 = files w ∧
  trace (filter_then_stream remote dataset emit_xarray results desired w).2
    = trace w ++ [Request url].
Proof.
  intros Hcat Hpre Hurl.
  destruct (filter_assets_spec (emit_results_urls results) desired) as (out & Hrun & Hsel).
  rewrite Hcat in Hsel.
  destruct (Selects_first (Wanted desired) pre post out url) as [out' ->]; [| |done|].
  { intros u Hu. by apply is_desired_false, Hpre. }
  { by apply is_desired_true. }
  assert (filter_then_stream remote dataset emit_xarray results desired w =
          stream remote dataset emit_xarray (url :: out') w) as ->.
  { unfold filter_then_stream. by rewrite Hrun. }
  rewrite stream_cons. split; [done|]. by destruct (remote url).
Qed.

Lemma filter_then_stream_first_witness :
  trace (filter_then_stream Sample.remote nat (λ b, Ok (length b))
           [ {| data_links := ["https://data.example/lp/EMIT_L2A_MASK_001.nc"] |};
             {| data_links := [Sample.url; "https://data.example/lp/EMIT_L2A_RFL_002.nc"] |} ]
           desired_assets Sample.empty_dir).2
  = [Request Sample.url].
Proof.
  destruct (filter_then_stream_first Sample.remote nat (λ b, Ok (length b))
              [ {| data_links := ["https://data.example/lp/EMIT_L2A_MASK_001.nc"] |};
                {| data_links := [Sample.url; "https://data.example/lp/EMIT_L2A_RFL_002.nc"] |} ]
              desired_assets
              ["https://data.example/lp/EMIT_L2A_MASK_001.nc"]
              ["https://data.example/lp/EMIT_L2A_RFL_002.nc"]
              Sample.url Sample.empty_dir) as (_ & _ & Htr).
  - reflexivity.
  - intros u Hu. apply list_elem_of_singleton in Hu. subst u. reflexivity.
  - reflexivity.
  - exact Htr.
Defined.

(** ** More on the download loop (cell 33) *)

Lemma for_each_app {A : Type} (l1 l2 : list A) (body : A → M unit) (w : world) :
  for_each (l1 ++ l2) body w =
  match for_each l1 body w with
  | (Ok _, w1) => for_each l2 body w1
  | (Raise e, w1) => (Raise e, w1)
  end.
Proof.
  revert w. induction l1 as [|x l1 IH]; intros w; simpl; [done|].
  unfold mbind, M_bind. destruct (body x w) as [[[]|e] w1]; [apply IH|done].
Qed.

(** When every destination is already there, the loop does nothing. *)
Lemma download_all_exist (remote : string → option (list byte))
    (breaks : string → option nat) (links : list string) (w : world) :
  (∀ url seg, url ∈ links → FinalSegment url seg →
     is_Some (files w !! local_path seg)) →
  download_filtered remote breaks links w = (Ok tt, w).
Proof.
  induction links as [|url links IH]; intros Hall; [done|].
  rewrite download_cons.
  destruct (download_url_cases remote breaks url w)
    as (seg & Hseg & [[_ ->]|[(Hnone & _)|[(Hnone & _)|(Hnone & _)]]]).
  - apply IH. intros u s Hu. apply Hall. by right.
  - destruct (Hall url seg) as [c Hc]; [by left|done|congruence].
  - destruct (Hall url seg) as [c Hc]; [by left|done|congruence].
  - destruct (Hall url seg) as [c Hc]; [by left|done|congruence].
Qed.

(** X14. Running the loop again after a run that returned normally does
    nothing: no request, no write, the same files. *)
Theorem download_filtered_rerun (remote : string → option (list byte))
    (breaks : string → option nat) (links : list string) (w w1 : world) :
  download_filtered remote breaks links w = (Ok tt, w1) →
  download_filtered remote breaks links w1 = (Ok tt, w1).
Proof.
  intros Hrun. apply download_all_exist. intros url seg Hurl Hseg.
  pose proof (download_all_present remote breaks links w) as Hall.
  rewrite Hrun in Hall. by apply (Hall eq_refl url seg).
Qed.

Lemma download_filtered_rerun_witness :
  ∃ w1, download_filtered Sample.remote Sample.unbroken [Sample.url] Sample.empty_dir
          = (Ok tt, w1) ∧
        download_filtered Sample.remote Sample.unbroken [Sample.url] w1 = (Ok tt, w1).
Proof.
  eexists. split; [reflexivity|].
  apply (download_filtered_rerun Sample.remote Sample.unbroken [Sample.url]
           Sample.empty_dir).
  reflexivity.
Defined.

(** X15. A request that fails stops the loop with the exception of the
    session: the links before it have been handled, no file is opened for
    the failing link, and the links after it are not looked at. *)
Theorem download_filtered_request_fails (remote : string → option (list byte))
    (breaks : string → option nat)
    (done_links rest : list string) (url seg : string) (w w1 : world) :
  download_filtered remote breaks done_links w = (Ok tt, w1) →
  FinalSegment url seg →
  files w1 !! local_path seg = None →
  remote url = None →
  download_filtered remote breaks (done_links ++ url :: rest) w
    = (Raise TransportError, log (Request url) w1) ∧
  files (log (Request url) w1) !! local_path seg = None.
Proof.
  intros Hdone Hseg Hnone Hrem. split; [|done].
  unfold download_filtered at 1. rewrite for_each_app.
  fold (download_filtered remote breaks done_links w). rewrite Hdone.
  fold (download_filtered remote breaks (url :: rest) w1). rewrite download_cons.
  destruct (download_url_cases remote breaks url w1)
    as (seg' & Hseg' & [[Hsome _]|[(_ & _ & ->)|[(_ & [b Hb] & _)|
                         (_ & _ & body & Hbody & _)]]]);
    pose proof (FinalSegment_unique _ _ _ Hseg' Hseg) as ->.
  - destruct Hsome; congruence.
  - done.
  - congruence.
  - congruence.
Qed.

Lemma download_filtered_request_fails_witness :
  download_filtered Sample.remote Sample.unbroken
    [Sample.url; "https://data.example/lp/EMIT_L2A_RFL_002.nc"; Sample.url]
    Sample.empty_dir
  = (Raise TransportError,
     log (Request "https://data.example/lp/EMIT_L2A_RFL_002.nc")
       (download_filtered Sample.remote Sample.unbroken [Sample.url] Sample.empty_dir).2).
Proof.
  apply (download_filtered_request_fails Sample.remote Sample.unbroken
           [Sample.url] [Sample.url]
           "https://data.example/lp/EMIT_L2A_RFL_002.nc" "EMIT_L2A_RFL_002.nc"
           Sample.empty_dir).
  - reflexivity.
  - split; [reflexivity|]. right. exists "https://data.example/lp". reflexivity.
  - reflexivity.
  - reflexivity.
Defined.




(** ** Filter, then download (cells 27, 29, 33) *)

(** X17. Run after the filter, the download loop sends requests only for wanted
    URLs of the search results, opens and writes only files whose name is
    the asset name of such a URL and contains a desired substring, and
    leaves every file that was there as it was. *)
Theorem filter_then_download_wanted (remote : string → option (list byte))
    (breaks : string → option nat)
    (results : list granule) (desired : list string) (w : world) :
  ∃ evs,
    trace (filter_then_download remote breaks results desired w).2 = trace w ++ evs ∧
    (∀ url, Request url ∈ evs →
       url ∈ concat (emit_results_urls results) ∧ Wanted desired url) ∧
    (∀ e p, e ∈ evs → written_path e = Some p →
       ∃ url seg asset,
         url ∈ concat (emit_results_urls results) ∧ FinalSegment url seg ∧
         p = local_path seg ∧ asset ∈ desired ∧ Substring asset seg) ∧
    (∀ p c, files w !! p = Some c →
       files (filter_then_download remote breaks results desired w).2 !! p = Some c).
Proof.
  destruct (filter_assets_spec (emit_results_urls results) desired) as (out & Hrun & Hsel).
  assert (filter_then_download remote breaks results desired w
          = download_filtered remote breaks out w) as ->.
  { unfold filter_then_download. by rewrite Hrun. }
  destruct (download_frame remote breaks out w) as (Hkeep & _ & evs & Htr & Hev).
  exists evs. split; [done|]. split; [|split; [|done]].
  - intros url He. destruct (Hev _ He) as [Hreq _].
    destruct (Hreq url eq_refl) as [Hin _].
    by apply (Selects_elem_of _ _ _ url Hsel).
  - intros e p He Hp. destruct (Hev e He) as [_ Hwr].
    destruct (Hwr p Hp) as (_ & url & seg & Hin & Hseg & ->).
    apply (Selects_elem_of _ _ _ url Hsel) in Hin
      as [Hin (seg' & asset & Hseg' & Hasset & Hsub)].
    rewrite (FinalSegment_unique _ _ _ Hseg' Hseg) in Hsub.
    by exists url, seg, asset.
Qed.

(** ** The number of writes *)





(** ** The short names of the collections (cell 8) *)

(** X19. The list comprehension of cell 8 gives one short name per collection,
    in the order of the collections, when every summary has the key
    ['short-name']; otherwise it raises [KeyError] for that key. *)
Theorem short_names_spec (value : Type) (collections : list (collection value)) :
  (∀ names, short_names value collections = Got names ↔
            Forall2 (λ c n, summary value c !! "short-name" = Some n) collections names) ∧
  (∀ key, short_names value collections = KeyError key ↔
          key = "short-name" ∧
          ∃ c, c ∈ collections ∧ summary value c !! "short-name" = None).
Proof.
  unfold short_names. induction collections as [|c cs [IHgot IHerr]]; simpl.
  - split.
    + intros names. split; [intros [= <-]; constructor|by inversion 1].
    + intros key. split; [done|]. by intros [_ (c & ?%elem_of_nil & _)].
  - unfold getitem at 1 3.
    destruct (summary value c !! "short-name") as [v|] eqn:Hv.
    + destruct (comprehension _ (map (summary value) cs)) as [ys|k] eqn:Hrest.
      * split.
        -- intros names. split.
           ++ intros [= <-]. constructor; [done|]. by apply IHgot.
           ++ inversion 1 as [|? n ? ns Hn Hns]; subst.
              apply IHgot in Hns. congruence.
        -- intros key. split; [done|].
           intros [_ (c' & Hin & Hnone)].
           apply elem_of_cons in Hin as [->|Hin]; [congruence|].
           assert (Got ys = KeyError "short-name") as Habs; [|done].
           apply IHerr. split; [done|]. by exists c'.
      * split.
        -- intros names. split; [done|].
           inversion 1 as [|? n ? ns Hn Hns]; subst.
           by apply IHgot in Hns.
        -- intros key. split.
           ++ intros [= <-]. destruct (proj1 (IHerr k) eq_refl) as [-> (c' & Hin & Hnone)].
              split; [done|]. exists c'. split; [by right|done].
           ++ intros [-> _]. f_equal.
              by destruct (proj1 (IHerr k) eq_refl) as [-> _].
    + split.
      * intros names. split; [done|].
        inversion 1 as [|? n ? ns Hn Hns]; subst. congruence.
      * intros key. split.
        -- intros [= <-]. split; [done|]. exists c. split; [by left|done].
        -- by intros [-> _].
Qed.

(** ** Splitting a URL at ['/'] (cells 29, 31, 33) *)

Lemma split_from_nonempty (sep : ascii) (s cur : string) :
  Py.split_from sep cur s ≠ [].
Proof.
  destruct (split_from_last sep s cur) as (init & seg & -> & _).
  by destruct init.
Qed.

Lemma split_from_join (sep : ascii) (s cur : string) :
  String.concat (String sep "") (Py.split_from sep cur s) = cur +:+ s.
Proof.
  revert cur. induction s as [|a s IH]; intros cur; simpl.
  - by rewrite str_app_nil_r.
  - destruct (Ascii.eqb_spec a sep) as [->|Hne].
    + specialize (IH ""). pose proof (split_from_nonempty sep s "") as Hne.
      destruct (Py.split_from sep "" s) as [|piece rest]; [done|].
      change (String.concat (String sep "") (cur :: piece :: rest))
        with (cur +:+ String sep "" +:+ String.concat (String sep "") (piece :: rest)).
      by rewrite IH.
    + by rewrite IH, str_app_assoc.
Qed.

Lemma split_from_pieces (sep : ascii) (s cur : string) :
  has_char sep cur = false →
  Forall (λ piece, has_char sep piece = false) (Py.split_from sep cur s).
Proof.
  revert cur. induction s as [|a s IH]; intros cur Hcur; simpl.
  - by constructor.
  - destruct (Ascii.eqb_spec a sep) as [->|Hne].
    + constructor; [done|]. by apply IH.
    + apply IH. rewrite has_char_app, Hcur. simpl.
      destruct (Ascii.eqb_spec a sep); [done|]. done.
Qed.

(** X2. [url.split('/')] always has at least one piece, no piece holds a
    ['/'], and the pieces joined by ['/'] are the URL again. *)
Theorem split_join (url : string) :
  Py.split "/" url ≠ [] ∧
  Forall (λ piece, has_char "/" piece = false) (Py.split "/" url) ∧
  String.concat "/" (Py.split "/" url) = url.
Proof.
  split; [apply split_from_nonempty|].
  split; [by apply split_from_pieces|].
  apply (split_from_join "/" url "").
Qed.
